(** * Riegeli chunk encoding: compressor options and frozen format tags

    A shallow embedding of [riegeli/chunk_encoding/types.h] and
    [riegeli/chunk_encoding/compressor_options.h].

    - A C++ [int] and a [uint8_t] are integers of [Z]; no arithmetic is done
      on them here, so there is no wrap-around to write out.
    - [absl::optional<int>] is [option Z], [absl::nullopt] is [None].
    - A method that mutates [*this] and returns [*this] is a function from
      the object to the object.  A method guarded by [RIEGELI_ASSERT_*]
      returns in the [Checked] monad: either it is done, or the assertion
      failed and the process is gone. *)

From Stdlib Require Import ZArith String Ascii List Bool Lia.
Import ListNotations.

Local Open Scope string_scope.
Local Open Scope Z_scope.

(* ===================================================================== *)
(** ** riegeli/base/base.h (assertions and constexpr helpers)             *)
(* ===================================================================== *)

Module Base.

(** Outcome of code that contains fatal assertions. *)
Inductive Checked (A : Type) : Type :=
| Done (a : A)
| CheckFailed (message : string).

Arguments Done {A} a.
Arguments CheckFailed {A} message.

Definition bind {A B : Type} (c : Checked A) (k : A -> Checked B) : Checked B :=
  match c with
  | Done a => k a
  | CheckFailed message => CheckFailed message
  end.

(** Modelled from the spec: the [RIEGELI_ASSERT], [RIEGELI_ASSERT_GE] and
    [RIEGELI_ASSERT_LE] macros of [riegeli/base/base.h], which is not among
    the sources.  A failed assertion is a precondition violation: "a fatal,
    immediate failure", carrying the message streamed into the macro. *)
Definition RIEGELI_ASSERT (condition : bool) (message : string) : Checked unit :=
  if condition then Done tt else CheckFailed message.

Definition RIEGELI_ASSERT_GE (a b : Z) (message : string) : Checked unit :=
  RIEGELI_ASSERT (b <=? a) message.

Definition RIEGELI_ASSERT_LE (a b : Z) (message : string) : Checked unit :=
  RIEGELI_ASSERT (a <=? b) message.

(** Modelled from the spec: the constexpr helpers [SignedMin] and
    [SignedMax] of [riegeli/base/base.h] (the combined window-log range is
    the union of the two backends' ranges). *)
Definition SignedMin (a b : Z) : Z := if a <? b then a else b.
Definition SignedMax (a b : Z) : Z := if a <? b then b else a.

End Base.

Declare Scope checked_scope.
Delimit Scope checked_scope with checked.
Notation "x <- c ;; k" := (Base.bind c (fun x => k))
  (at level 61, c at next level, right associativity) : checked_scope.
Notation "c ;;; k" := (Base.bind c (fun _ => k))
  (at level 61, right associativity) : checked_scope.

(* ===================================================================== *)
(** ** riegeli/chunk_encoding/types.h                                     *)
(* ===================================================================== *)

Module Types.

(** The value of a character literal stored in a [uint8_t]. *)
Definition char_value (c : ascii) : Z := Z.of_N (N_of_ascii c).

(** [enum class ChunkType : uint8_t] *)
Inductive ChunkType : Type :=
| kFileSignature
| kPadding
| kSimple
| kTransposed.

Definition ChunkType_value (t : ChunkType) : Z :=
  match t with
  | kFileSignature => char_value "s"
  | kPadding => char_value "p"
  | kSimple => char_value "r"
  | kTransposed => char_value "t"
  end.

(** [enum class CompressionType : uint8_t], as [types.h] declares it. *)
Inductive CompressionType : Type :=
| kNone
| kBrotli
| kZstd.

Definition CompressionType_value (t : CompressionType) : Z :=
  match t with
  | kNone => 0
  | kBrotli => char_value "b"
  | kZstd => char_value "z"
  end.

(** The enumerators in declaration order, with the names they are declared
    under. *)
Definition ChunkType_enumerators : list (string * ChunkType) :=
  [("kFileSignature", kFileSignature); ("kPadding", kPadding);
   ("kSimple", kSimple); ("kTransposed", kTransposed)].

Definition CompressionType_enumerators : list (string * CompressionType) :=
  [("kNone", kNone); ("kBrotli", kBrotli); ("kZstd", kZstd)].

End Types.

(* ===================================================================== *)
(** ** riegeli/chunk_encoding/constants.h                                 *)
(* ===================================================================== *)

Module Constants.

(** Modelled from the spec: the [CompressionType] declaration of
    [riegeli/chunk_encoding/constants.h], the header that
    [compressor_options.h] includes and which is not among the sources.
    The spec lists the variants [None], [Brotli], [Zstd], [Snappy];
    [compressor_options.h] names [kNone], [kBrotli], [kZstd] and
    [kSnappy]. *)
Inductive CompressionType : Type :=
| kNone
| kBrotli
| kZstd
| kSnappy.

Definition CompressionType_eqb (a b : CompressionType) : bool :=
  match a, b with
  | kNone, kNone | kBrotli, kBrotli | kZstd, kZstd | kSnappy, kSnappy => true
  | _, _ => false
  end.


End Constants.

(* ===================================================================== *)
(** ** Constants of the writers' option classes                           *)
(* ===================================================================== *)

(** Modelled from the spec: the constants of [BrotliWriterBase::Options]
    ([riegeli/brotli/brotli_writer.h], not among the sources), with the
    values that the comments of [compressor_options.h] and the spec give:
    levels 0..11 with default 6, window logs 10..30 with default 22. *)
Module BrotliWriterBase.
Module Options.
Definition kMinCompressionLevel : Z := 0.
Definition kMaxCompressionLevel : Z := 11.
Definition kDefaultCompressionLevel : Z := 6.
Definition kMinWindowLog : Z := 10.
Definition kMaxWindowLog : Z := 30.
Definition kDefaultWindowLog : Z := 22.
End Options.
End BrotliWriterBase.

(** Modelled from the spec: the constants of [ZstdWriterBase::Options]
    ([riegeli/zstd/zstd_writer.h], not among the sources), with the values
    that the comments of [compressor_options.h] and the spec give: levels
    -131072..22 with default 3, window logs 10..31.  The upper window log
    is that of a 64-bit build (30 in a 32-bit build), the one the options
    grammar's [10..31] is written for. *)
Module ZstdWriterBase.
Module Options.
Definition kMinCompressionLevel : Z := -131072.
Definition kMaxCompressionLevel : Z := 22.
Definition kDefaultCompressionLevel : Z := 3.
Definition kMinWindowLog : Z := 10.
Definition kMaxWindowLog : Z := 31.
End Options.
End ZstdWriterBase.

(* ===================================================================== *)
(** ** riegeli/chunk_encoding/compressor_options.h                        *)
(* ===================================================================== *)

Module CompressorOptions.

Import Base.
Export Constants.
Local Open Scope checked_scope.

(** The private members of [class CompressorOptions]. *)
Record t : Type := mk {
  compression_type_ : CompressionType;
  compression_level_ : Z;
  window_log_ : option Z
}.

Definition kMinBrotli : Z := BrotliWriterBase.Options.kMinCompressionLevel.
Definition kMaxBrotli : Z := BrotliWriterBase.Options.kMaxCompressionLevel.
Definition kDefaultBrotli : Z := BrotliWriterBase.Options.kDefaultCompressionLevel.

Definition kMinZstd : Z := ZstdWriterBase.Options.kMinCompressionLevel.
Definition kMaxZstd : Z := ZstdWriterBase.Options.kMaxCompressionLevel.
Definition kDefaultZstd : Z := ZstdWriterBase.Options.kDefaultCompressionLevel.

Definition kMinWindowLog : Z :=
  SignedMin BrotliWriterBase.Options.kMinWindowLog
            ZstdWriterBase.Options.kMinWindowLog.
Definition kMaxWindowLog : Z :=
  SignedMax BrotliWriterBase.Options.kMaxWindowLog
            ZstdWriterBase.Options.kMaxWindowLog.

(** [CompressorOptions() noexcept {}] with the default member
    initializers. *)
Definition CompressorOptions : t :=
  {| compression_type_ := kBrotli;
     compression_level_ := kDefaultBrotli;
     window_log_ := None |}.

Definition compression_type (self : t) : CompressionType := compression_type_ self.
Definition compression_level (self : t) : Z := compression_level_ self.
Definition window_log (self : t) : option Z := window_log_ self.

Definition set_uncompressed (self : t) : t :=
  {| compression_type_ := kNone;
     compression_level_ := 0;
     window_log_ := window_log_ self |}.

Definition set_brotli (compression_level : Z) (self : t) : Checked t :=
  RIEGELI_ASSERT_GE compression_level kMinBrotli
    "Failed precondition of CompressorOptions::set_brotli(): compression level out of range" ;;;
  RIEGELI_ASSERT_LE compression_level kMaxBrotli
    "Failed precondition of CompressorOptions::set_brotli(): compression level out of range" ;;;
  Done {| compression_type_ := kBrotli;
          compression_level_ := compression_level;
          window_log_ := window_log_ self |}.

Definition set_zstd (compression_level : Z) (self : t) : Checked t :=
  RIEGELI_ASSERT_GE compression_level kMinZstd
    "Failed precondition of CompressorOptions::set_zstd(): compression level out of range" ;;;
  RIEGELI_ASSERT_LE compression_level kMaxZstd
    "Failed precondition of CompressorOptions::set_zstd(): compression level out of range" ;;;
  Done {| compression_type_ := kZstd;
          compression_level_ := compression_level;
          window_log_ := window_log_ self |}.

Definition set_snappy (self : t) : t :=
  {| compression_type_ := kSnappy;
     compression_level_ := 0;
     window_log_ := window_log_ self |}.

Definition set_window_log (window_log : option Z) (self : t) : Checked t :=
  match window_log with
  | Some w =>
      RIEGELI_ASSERT_GE w kMinWindowLog
        "Failed precondition of CompressorOptions::set_window_log(): window log out of range" ;;;
      RIEGELI_ASSERT_LE w kMaxWindowLog
        "Failed precondition of CompressorOptions::set_window_log(): window log out of range"
  | None => Done tt
  end ;;;
  Done {| compression_type_ := compression_type_ self;
          compression_level_ := compression_level_ self;
          window_log_ := window_log |}.

(** Modelled from the spec: [brotli_window_log()], which
    [compressor_options.h] declares with its precondition and
    [compressor_options.cc] (not among the sources) defines.  "Defined only
    when algorithm == Brotli; returns the configured window_log or a fixed
    backend default (22) when unset.  Calling it otherwise is a precondition
    failure."  This is where Brotli consumes the window log, and "each
    algorithm also enforces its own narrower range when the value is
    actually consumed": for Brotli, the comment of [window_log] gives
    [BrotliWriterBase::Options::kMinWindowLog] (10) to [kMaxWindowLog]
    (30). *)
Definition brotli_window_log (self : t) : Checked Z :=
  RIEGELI_ASSERT (CompressionType_eqb (compression_type_ self) kBrotli)
    "Failed precondition of CompressorOptions::brotli_window_log(): compression type must be Brotli" ;;;
  match window_log_ self with
  | None => Done BrotliWriterBase.Options.kDefaultWindowLog
  | Some w =>
      RIEGELI_ASSERT_GE w BrotliWriterBase.Options.kMinWindowLog
        "Failed precondition of CompressorOptions::brotli_window_log(): window log out of range for Brotli" ;;;
      RIEGELI_ASSERT_LE w BrotliWriterBase.Options.kMaxWindowLog
        "Failed precondition of CompressorOptions::brotli_window_log(): window log out of range for Brotli" ;;;
      Done w
  end.

(** Modelled from the spec: [zstd_window_log()], declared in
    [compressor_options.h] and defined in [compressor_options.cc] (not among
    the sources).  "Defined only when algorithm == Zstd; returns the
    configured window_log verbatim (still optional) when explicit, or unset
    [...].  Calling it otherwise is a precondition failure." *)
Definition zstd_window_log (self : t) : Checked (option Z) :=
  RIEGELI_ASSERT (CompressionType_eqb (compression_type_ self) kZstd)
    "Failed precondition of CompressorOptions::zstd_window_log(): compression type must be Zstd" ;;;
  Done (window_log_ self).

(** *** The options parser

    [FromString] is declared in [compressor_options.h], with the grammar in
    its comment, and defined in [compressor_options.cc], which is not among
    the sources.  The definitions from here to [parse] are modelled from
    the spec's processing rule. *)

Definition comma : ascii := ","%char.
Definition colon : ascii := ":"%char.
Definition minus : ascii := "-"%char.

(** Modelled from the spec: "the input is split on commas".  The segments
    between the separators, in order; a text with n separators has n + 1
    segments. *)
Fixpoint split_on (separator : ascii) (text : string) : list string :=
  match text with
  | EmptyString => [EmptyString]
  | String c rest =>
      if Ascii.eqb c separator then EmptyString :: split_on separator rest
      else match split_on separator rest with
           | segment :: segments => String c segment :: segments
           | [] => [String c EmptyString]
           end
  end.

(** Modelled from the spec: "colon-delimited levels".  The keyword before
    the first colon of a segment, and the value after it when there is a
    colon. *)
Fixpoint cut_at (separator : ascii) (text : string) : string * option string :=
  match text with
  | EmptyString => (EmptyString, None)
  | String c rest =>
      if Ascii.eqb c separator then (EmptyString, Some rest)
      else let (key, value) := cut_at separator rest in (String c key, value)
  end.

Definition digit_value (c : ascii) : option Z :=
  let code := Z.of_N (N_of_ascii c) in
  if (48 <=? code) && (code <=? 57) then Some (code - 48) else None.

Fixpoint parse_digits (accumulator : Z) (text : string) : option Z :=
  match text with
  | EmptyString => Some accumulator
  | String c rest =>
      match digit_value c with
      | Some d => parse_digits (10 * accumulator + d) rest
      | None => None
      end
  end.

(** Modelled from the spec: a "parseable integer" is a decimal numeral, one
    digit or more, with an optional minus sign in front; "non-numeric
    characters after [:]" make the value unparseable. *)
Definition parse_integer (text : string) : option Z :=
  match text with
  | EmptyString => None
  | String c rest =>
      if Ascii.eqb c minus then
        match rest with
        | EmptyString => None
        | String _ _ => option_map Z.opp (parse_digits 0 rest)
        end
      else parse_digits 0 text
  end.

(** Modelled from the spec: one "validated mutation" of the configuration
    value, the call of one setter. *)
Inductive Mutation : Type :=
| SetUncompressed
| SetBrotli (compression_level : Z)
| SetZstd (compression_level : Z)
| SetSnappy
| SetWindowLog (window_log : option Z).

Definition apply_mutation (m : Mutation) (self : t) : Checked t :=
  match m with
  | SetUncompressed => Done (set_uncompressed self)
  | SetBrotli compression_level => set_brotli compression_level self
  | SetZstd compression_level => set_zstd compression_level self
  | SetSnappy => Done (set_snappy self)
  | SetWindowLog window_log => set_window_log window_log self
  end.

(** Modelled from the spec: the "structured error" of a rejected segment,
    and its "human-readable message naming the bad token": the whole
    segment when its keyword is none of the grammar, the keyword and the
    value when the keyword does not take the value. *)
Inductive ParseError : Type :=
| UnknownOption (segment : string)
| InvalidValue (key : string) (value : option string).

Definition describe (e : ParseError) : string :=
  match e with
  | UnknownOption segment => "Unknown option " ++ segment
  | InvalidValue key value =>
      "Option " ++ key ++ ": invalid value: "
      ++ match value with
         | Some text => text
         | None => EmptyString
         end
  end.

Definition in_range (minimum maximum n : Z) : bool :=
  (minimum <=? n) && (n <=? maximum).

(** A keyword that takes no value. *)
Definition parse_flag (key : string) (value : option string) (m : Mutation)
  : ParseError + Mutation :=
  match value with
  | None => inr m
  | Some _ => inl (InvalidValue key value)
  end.

(** A keyword with an optional level: the default when the level is
    omitted, and an integer within the keyword's bound otherwise. *)
Definition parse_level (key : string) (value : option string)
    (minimum maximum default : Z) (setter : Z -> Mutation)
  : ParseError + Mutation :=
  match value with
  | None => inr (setter default)
  | Some text =>
      match parse_integer text with
      | Some n =>
          if in_range minimum maximum n then inr (setter n)
          else inl (InvalidValue key value)
      | None => inl (InvalidValue key value)
      end
  end.

(** [window_log]: the value is required, ["auto"] or an integer in range;
    ["auto"] resolves to the unset state. *)
Definition parse_window_log (key : string) (value : option string)
  : ParseError + Mutation :=
  match value with
  | None => inl (InvalidValue key value)
  | Some text =>
      if String.eqb text "auto" then inr (SetWindowLog None)
      else match parse_integer text with
           | Some n =>
               if in_range kMinWindowLog kMaxWindowLog n
               then inr (SetWindowLog (Some n))
               else inl (InvalidValue key value)
           | None => inl (InvalidValue key value)
           end
  end.

(** Modelled from the spec: "each non-empty segment is matched against the
    keyword set (case-sensitive, exact keyword)". *)
Definition parse_option (segment : string) : ParseError + Mutation :=
  let (key, value) := cut_at colon segment in
  if String.eqb key "uncompressed" then parse_flag key value SetUncompressed
  else if String.eqb key "brotli" then
    parse_level key value kMinBrotli kMaxBrotli kDefaultBrotli SetBrotli
  else if String.eqb key "zstd" then
    parse_level key value kMinZstd kMaxZstd kDefaultZstd SetZstd
  else if String.eqb key "snappy" then parse_flag key value SetSnappy
  else if String.eqb key "window_log" then parse_window_log key value
  else inl (UnknownOption segment).

(** What [FromString] reports: [status.ok()] with the mutated object, or
    [!status.ok()] with the status message.  The spec does not say what the
    object holds after a rejected text, and nothing is modelled of it. *)
Inductive ParseResult : Type :=
| Parsed (options : t)
| Rejected (message : string).

Definition ok (r : ParseResult) : bool :=
  match r with
  | Parsed _ => true
  | Rejected _ => false
  end.

(** Modelled from the spec: "an empty segment is silently skipped";
    "segments are applied in left-to-right order, each overwriting the
    previously accumulated algorithm/level or window_log exactly as the
    corresponding setter would". *)
Fixpoint apply_segments (segments : list string) (self : t) : Checked ParseResult :=
  match segments with
  | [] => Done (Parsed self)
  | segment :: rest =>
      if String.eqb segment EmptyString then apply_segments rest self
      else match parse_option segment with
           | inl e => Done (Rejected (describe e))
           | inr m =>
               self' <- apply_mutation m self ;;
               apply_segments rest self'
           end
  end.

(** Modelled from the spec: [FromString], the grammar parser run on
    [*this]. *)
Definition FromString (text : string) (self : t) : Checked ParseResult :=
  apply_segments (split_on comma text) self.

(** Modelled from the spec: [parse(text)], the parser "starting from
    default-constructed state". *)
Definition parse (text : string) : Checked ParseResult :=
  FromString text CompressorOptions.

End CompressorOptions.

(* ===================================================================== *)
(** ** The options grammar of compressor_options.h                        *)
(* ===================================================================== *)

(** The grammar in the comment of [FromString], as relations between a
    text and what it denotes:
<<
    options ::= option? ("," option?)*
    option ::=
      "uncompressed" |
      "brotli" (":" brotli_level)? |
      "zstd" (":" zstd_level)? |
      "snappy" |
      "window_log" ":" window_log
    brotli_level ::= integer 0..11 (default 6)
    zstd_level ::= integer -131072..22 (default 3)
    window_log ::= "auto" or integer 10..31
>> *)
Module Grammar.

Import CompressorOptions.

Inductive digit : ascii -> Z -> Prop :=
| digit_0 : digit "0" 0
| digit_1 : digit "1" 1
| digit_2 : digit "2" 2
| digit_3 : digit "3" 3
| digit_4 : digit "4" 4
| digit_5 : digit "5" 5
| digit_6 : digit "6" 6
| digit_7 : digit "7" 7
| digit_8 : digit "8" 8
| digit_9 : digit "9" 9.

(** One digit or more, read in base ten. *)
Inductive numeral : string -> Z -> Prop :=
| numeral_digit c d :
    digit c d -> numeral (String c EmptyString) d
| numeral_more s n c d :
    numeral s n -> digit c d ->
    numeral (s ++ String c EmptyString) (10 * n + d).

Inductive integer : string -> Z -> Prop :=
| integer_plain s n : numeral s n -> integer s n
| integer_minus s n : numeral s n -> integer (String minus s) (- n).

(** [option]: the text of one option and the setter call it stands for. *)
Inductive option_denotes : string -> Mutation -> Prop :=
| option_uncompressed :
    option_denotes "uncompressed" SetUncompressed
| option_brotli :
    option_denotes "brotli" (SetBrotli 6)
| option_brotli_level s n :
    integer s n -> 0 <= n <= 11 ->
    option_denotes ("brotli:" ++ s) (SetBrotli n)
| option_zstd :
    option_denotes "zstd" (SetZstd 3)
| option_zstd_level s n :
    integer s n -> -131072 <= n <= 22 ->
    option_denotes ("zstd:" ++ s) (SetZstd n)
| option_snappy :
    option_denotes "snappy" SetSnappy
| option_window_log_auto :
    option_denotes "window_log:auto" (SetWindowLog None)
| option_window_log s n :
    integer s n -> 10 <= n <= 31 ->
    option_denotes ("window_log:" ++ s) (SetWindowLog (Some n)).

(** [options]: a text and the setter calls of its options, in order. *)
Inductive options_denote : string -> list Mutation -> Prop :=
| options_none :
    options_denote EmptyString []
| options_last o m :
    option_denotes o m -> options_denote o [m]
| options_skip rest ms :
    options_denote rest ms -> options_denote (String comma rest) ms
| options_more o m rest ms :
    option_denotes o m -> options_denote rest ms ->
    options_denote (o ++ String comma rest) (m :: ms).

(** A text conforms to the grammar. *)
Definition conforms (text : string) : Prop :=
  exists ms, options_denote text ms.

(** A segment is an option of the grammar. *)
Definition is_option (segment : string) : Prop :=
  exists m, option_denotes segment m.

(** A mutation that some option of the grammar stands for. *)
Definition of_grammar (m : Mutation) : Prop :=
  exists segment, option_denotes segment m.

(** The segments of a text that are not empty. *)
Definition nonempty_segments (text : string) : list string :=
  filter (fun segment => negb (String.eqb segment EmptyString))
         (split_on comma text).

(** The setter calls of a list of mutations, left to right. *)
Fixpoint apply_mutations (ms : list Mutation) (self : t) : Base.Checked t :=
  match ms with
  | [] => Base.Done self
  | m :: rest =>
      Base.bind (apply_mutation m self) (apply_mutations rest)
  end.

(** The algorithm and level that a mutation writes, when it writes them. *)
Definition algorithm_written (m : Mutation) : option (CompressionType * Z) :=
  match m with
  | SetUncompressed => Some (kNone, 0)
  | SetBrotli compression_level => Some (kBrotli, compression_level)
  | SetZstd compression_level => Some (kZstd, compression_level)
  | SetSnappy => Some (kSnappy, 0)
  | SetWindowLog _ => None
  end.

(** The window log that a mutation writes, when it writes one. *)
Definition window_log_written (m : Mutation) : option (option Z) :=
  match m with
  | SetWindowLog window_log => Some window_log
  | _ => None
  end.

(** What the last element of [l] on which [f] is defined gives. *)
Fixpoint last_written {A B : Type} (f : A -> option B) (l : list A) : option B :=
  match l with
  | [] => None
  | x :: rest =>
      match last_written f rest with
      | Some b => Some b
      | None => f x
      end
  end.

(** The segments of a text put together again. *)
Fixpoint join (segments : list string) : string :=
  match segments with
  | [] => EmptyString
  | [segment] => segment
  | segment :: rest => segment ++ String comma (join rest)
  end.

(** A text of [n] commas: [n + 1] empty segments. *)
Fixpoint commas (n : nat) : string :=
  match n with
  | O => EmptyString
  | S n' => String comma (commas n')
  end.

(** [token] occurs in [message]. *)
Definition mentions (message token : string) : Prop :=
  exists before after, message = before ++ token ++ after.

(** [c] occurs in [text]. *)
Fixpoint occurs (c : ascii) (text : string) : Prop :=
  match text with
  | EmptyString => False
  | String c' rest => c' = c \/ occurs c rest
  end.

(** The object after a mutation, field by field: what the mutation writes,
    and the old value of what it does not write. *)
Definition overwrite (self : t) (m : Mutation) : t :=
  {| compression_type_ :=
       match algorithm_written m with
       | Some (type, _) => type
       | None => compression_type self
       end;
     compression_level_ :=
       match algorithm_written m with
       | Some (_, level) => level
       | None => compression_level self
       end;
     window_log_ :=
       match window_log_written m with
       | Some w => w
       | None => window_log self
       end |}.

(** The keywords of the grammar. *)
Definition keywords : list string :=
  ["uncompressed"; "brotli"; "zstd"; "snappy"; "window_log"].

End Grammar.

(* ===================================================================== *)
(** ** Chains of setter calls                                             *)
(* ===================================================================== *)

(** The setters return [*this], so that calls are chained:
    [CompressorOptions().set_zstd(5).set_window_log(20)].  A chain is a
    list of calls ([Mutation]), run by [Grammar.apply_mutations]. *)
Module Chains.

Import CompressorOptions.

(** What the assertions of a setter ask of its argument. *)
Definition in_bounds (m : Mutation) : Prop :=
  match m with
  | SetUncompressed => True
  | SetBrotli compression_level =>
      kMinBrotli <= compression_level <= kMaxBrotli
  | SetZstd compression_level =>
      kMinZstd <= compression_level <= kMaxZstd
  | SetSnappy => True
  | SetWindowLog None => True
  | SetWindowLog (Some w) => kMinWindowLog <= w <= kMaxWindowLog
  end.

(** The level is one that the setter of the algorithm stores, and the
    window log is one that [set_window_log] stores. *)
Definition well_formed (self : t) : Prop :=
  match compression_type self with
  | kNone => compression_level self = 0
  | kBrotli => kMinBrotli <= compression_level self <= kMaxBrotli
  | kZstd => kMinZstd <= compression_level self <= kMaxZstd
  | kSnappy => compression_level self = 0
  end
  /\ match window_log self with
     | Some w => kMinWindowLog <= w <= kMaxWindowLog
     | None => True
     end.

(** The setter call that gives the algorithm and level which the accessors
    of [self] return. *)
Definition algorithm_call (self : t) : Mutation :=
  match compression_type self with
  | kNone => SetUncompressed
  | kBrotli => SetBrotli (compression_level self)
  | kZstd => SetZstd (compression_level self)
  | kSnappy => SetSnappy
  end.

(** The two calls that pass on what the three accessors of [self]
    return. *)
Definition replay (self : t) : list Mutation :=
  [algorithm_call self; SetWindowLog (window_log self)].

(** The setter calls that the non-empty segments of a list stand for. *)
Fixpoint denoted (segments : list string) : list Mutation :=
  match segments with
  | [] => []
  | segment :: rest =>
      match parse_option segment with
      | inr m => m :: denoted rest
      | inl _ => denoted rest
      end
  end.

End Chains.

(* ===================================================================== *)
(** * Properties                                                          *)
(* ===================================================================== *)

(** ** The frozen tags of types.h *)

Module TypesFacts.

Import Types.

Lemma ChunkType_value_byte (t : ChunkType) : 0 <= ChunkType_value t < 256.
Proof. destruct t; vm_compute; split; congruence. Qed.

Lemma CompressionType_value_byte (t : CompressionType) :
  0 <= CompressionType_value t < 256.
Proof. destruct t; vm_compute; split; congruence. Qed.

Lemma ChunkType_value_injective (a b : ChunkType) :
  ChunkType_value a = ChunkType_value b -> a = b.
Proof. destruct a, b; vm_compute; congruence. Qed.

Lemma CompressionType_value_injective (a b : CompressionType) :
  CompressionType_value a = CompressionType_value b -> a = b.
Proof. destruct a, b; vm_compute; congruence. Qed.

Lemma CompressionType_closed (c : CompressionType) :
  In c [kNone; kBrotli; kZstd].
Proof. destruct c; simpl; auto. Qed.

(** Four values of the [CompressionType] of [types.h] are never pairwise
    different. *)
Lemma CompressionType_pigeonhole (a b c d : CompressionType) :
  a = b \/ a = c \/ a = d \/ b = c \/ b = d \/ c = d.
Proof. destruct a, b, c, d; auto 6. Qed.

(** C2: the numeric codes of the two frozen enums are the fixed byte
    values: [kFileSignature] is 's' (115), [kPadding] is 'p' (112),
    [kSimple] is 'r' (114), [kTransposed] is 't' (116); [kNone] is 0,
    [kBrotli] is 'b' (98) and [kZstd] is 'z' (122). *)
Theorem frozen_enum_codes :
  (ChunkType_value kFileSignature = char_value "s"
   /\ ChunkType_value kPadding = char_value "p"
   /\ ChunkType_value kSimple = char_value "r"
   /\ ChunkType_value kTransposed = char_value "t")
  /\ map (fun e => (fst e, ChunkType_value (snd e))) ChunkType_enumerators
     = [("kFileSignature", 115); ("kPadding", 112);
        ("kSimple", 114); ("kTransposed", 116)]
  /\ (CompressionType_value kNone = 0
      /\ CompressionType_value kBrotli = char_value "b"
      /\ CompressionType_value kZstd = char_value "z")
  /\ map (fun e => (fst e, CompressionType_value (snd e)))
         CompressionType_enumerators
     = [("kNone", 0); ("kBrotli", 98); ("kZstd", 122)].
Proof. repeat split. Qed.

(** The [CompressionType] that [types.h] declares is the smaller one: it
    has no four different variants, and none of its enumerators is named
    [kSnappy]. *)
Lemma CompressionType_has_no_fourth_variant :
  (~ exists l : list CompressionType, NoDup l /\ length l = 4%nat)
  /\ ~ In "kSnappy" (map fst CompressionType_enumerators).
Proof.
  split.
  - intros [l [Hnodup Hlen]].
    destruct l as [|a [|b [|c [|d [|e l]]]]]; try discriminate Hlen.
    inversion Hnodup as [|? ? Ha Hbcd]; subst.
    inversion Hbcd as [|? ? Hb Hcd]; subst.
    inversion Hcd as [|? ? Hc _]; subst.
    simpl in Ha, Hb, Hc.
    destruct (CompressionType_pigeonhole a b c d)
      as [E|[E|[E|[E|[E|E]]]]]; subst; tauto.
  - simpl. intros [H|[H|[H|[]]]]; discriminate H.
Qed.




End TypesFacts.

(** ** The setters and translations of CompressorOptions *)

Module SetterFacts.

Import Base CompressorOptions.

(** Runs the assertions of a setter: unfolds them and decides each
    comparison. *)
Ltac run_assertions :=
  cbv [set_brotli set_zstd set_window_log brotli_window_log zstd_window_log
       RIEGELI_ASSERT_GE RIEGELI_ASSERT_LE RIEGELI_ASSERT bind
       kMinBrotli kMaxBrotli kMinZstd kMaxZstd kMinWindowLog kMaxWindowLog
       SignedMin SignedMax
       BrotliWriterBase.Options.kMinCompressionLevel
       BrotliWriterBase.Options.kMaxCompressionLevel
       BrotliWriterBase.Options.kMinWindowLog
       BrotliWriterBase.Options.kMaxWindowLog
       BrotliWriterBase.Options.kDefaultWindowLog
       ZstdWriterBase.Options.kMinCompressionLevel
       ZstdWriterBase.Options.kMaxCompressionLevel
       ZstdWriterBase.Options.kMinWindowLog
       ZstdWriterBase.Options.kMaxWindowLog];
  change (10 <? 10) with false; change (30 <? 31) with true; cbv iota;
  repeat match goal with
         | |- context [Z.leb ?a ?b] => destruct (Z.leb_spec a b)
         end.

Lemma kMinWindowLog_value : kMinWindowLog = 10.
Proof. reflexivity. Qed.

Lemma kMaxWindowLog_value : kMaxWindowLog = 31.
Proof. reflexivity. Qed.

Lemma set_brotli_done (level : Z) (self : t) :
  0 <= level <= 11 ->
  set_brotli level self = Done (mk kBrotli level (window_log self)).
Proof. intros H. run_assertions; try lia; reflexivity. Qed.

Lemma set_brotli_failed (level : Z) (self : t) :
  ~ 0 <= level <= 11 ->
  exists message, set_brotli level self = CheckFailed message.
Proof. intros H. run_assertions; try lia; eexists; reflexivity. Qed.

Lemma set_zstd_done (level : Z) (self : t) :
  -131072 <= level <= 22 ->
  set_zstd level self = Done (mk kZstd level (window_log self)).
Proof. intros H. run_assertions; try lia; reflexivity. Qed.

Lemma set_zstd_failed (level : Z) (self : t) :
  ~ -131072 <= level <= 22 ->
  exists message, set_zstd level self = CheckFailed message.
Proof. intros H. run_assertions; try lia; eexists; reflexivity. Qed.

Lemma set_window_log_done (w : Z) (self : t) :
  10 <= w <= 31 ->
  set_window_log (Some w) self
  = Done (mk (compression_type self) (compression_level self) (Some w)).
Proof. intros H. run_assertions; try lia; reflexivity. Qed.

Lemma set_window_log_failed (w : Z) (self : t) :
  ~ 10 <= w <= 31 ->
  exists message, set_window_log (Some w) self = CheckFailed message.
Proof. intros H. run_assertions; try lia; eexists; reflexivity. Qed.

Lemma set_window_log_unset (self : t) :
  set_window_log None self
  = Done (mk (compression_type self) (compression_level self) None).
Proof. reflexivity. Qed.

Lemma done_not_failed {A : Type} (c : Checked A) (a : A) :
  c = Done a -> ~ exists message, c = CheckFailed message.
Proof. intros -> [message H]; discriminate H. Qed.

(** C6: [set_brotli(level)] requires [level] in [0, 11] and
    [set_zstd(level)] requires [level] in [-131072, 22].  Within the bound
    no assertion fails, and the call sets the algorithm to Brotli (Zstd)
    and the level to the given value; outside it the call is a fatal
    precondition failure. *)
Theorem set_brotli_set_zstd_preconditions (level : Z) (self : t) :
  (0 <= level <= 11 <->
   set_brotli level self = Done (mk kBrotli level (window_log self)))
  /\ (~ 0 <= level <= 11 <->
      exists message, set_brotli level self = CheckFailed message)
  /\ (-131072 <= level <= 22 <->
      set_zstd level self = Done (mk kZstd level (window_log self)))
  /\ (~ -131072 <= level <= 22 <->
      exists message, set_zstd level self = CheckFailed message).
Proof.
  assert (Hb : 0 <= level <= 11 \/ ~ 0 <= level <= 11) by lia.
  assert (Hz : -131072 <= level <= 22 \/ ~ -131072 <= level <= 22) by lia.
  split; [split|split; [split|split; [split|split]]].
  - apply set_brotli_done.
  - intros Hdone. destruct Hb as [Hb|Hb]; [exact Hb|].
    destruct (set_brotli_failed level self Hb) as [message Hfail].
    congruence.
  - apply set_brotli_failed.
  - intros Hfail Hin. apply (set_brotli_done level self) in Hin.
    exact (done_not_failed _ _ Hin Hfail).
  - apply set_zstd_done.
  - intros Hdone. destruct Hz as [Hz|Hz]; [exact Hz|].
    destruct (set_zstd_failed level self Hz) as [message Hfail].
    congruence.
  - apply set_zstd_failed.
  - intros Hfail Hin. apply (set_zstd_done level self) in Hin.
    exact (done_not_failed _ _ Hin Hfail).
Qed.

(** C6, at the bounds: 11 and -131072 are accepted, 12 and -131073 are
    fatal. *)
Lemma set_brotli_set_zstd_preconditions_witness :
  set_brotli 11 CompressorOptions = Done (mk kBrotli 11 None)
  /\ (exists message, set_brotli 12 CompressorOptions = CheckFailed message)
  /\ set_zstd (-131072) CompressorOptions = Done (mk kZstd (-131072) None)
  /\ (exists message, set_zstd (-131073) CompressorOptions = CheckFailed message).
Proof.
  split; [|split; [|split]].
  - apply (proj1 (proj1 (set_brotli_set_zstd_preconditions 11 CompressorOptions))).
    lia.
  - apply (proj1 (proj1 (proj2 (set_brotli_set_zstd_preconditions 12 CompressorOptions)))).
    lia.
  - apply (proj1 (proj1 (proj2 (proj2
             (set_brotli_set_zstd_preconditions (-131072) CompressorOptions))))).
    lia.
  - apply (proj1 (proj2 (proj2 (proj2
             (set_brotli_set_zstd_preconditions (-131073) CompressorOptions))))).
    lia.
Defined.

(** C7, as the claim states it, fails on the code: with the algorithm
    [kNone] or [kSnappy], [set_window_log(15)] passes both assertions and
    stores 15. *)
Lemma set_window_log_accepts_uncompressed_and_snappy :
  set_window_log (Some 15) (set_uncompressed CompressorOptions)
  = Done (mk kNone 0 (Some 15))
  /\ set_window_log (Some 15) (set_snappy CompressorOptions)
     = Done (mk kSnappy 0 (Some 15))
  /\ ~ (forall (self : t) (w : Z),
          compression_type self = kNone \/ compression_type self = kSnappy ->
          exists message, set_window_log (Some w) self = CheckFailed message).
Proof.
  split; [reflexivity|]. split; [reflexivity|].
  intros H.
  destruct (H (set_uncompressed CompressorOptions) 15 (or_introl eq_refl))
    as [message Hfail].
  discriminate Hfail.
Qed.

(** C7 (amended): [set_window_log] never looks at the algorithm field.
    With a present value it asserts only the range [kMinWindowLog] (10) to
    [kMaxWindowLog] (31): a value in the range is stored whatever the
    algorithm is, [kNone] and [kSnappy] included, and only a value outside
    the range is a fatal precondition failure; [absl::nullopt] is always
    stored. *)
Theorem set_window_log_checks_range_only (w : Z) (self : t) :
  (10 <= w <= 31 <->
   set_window_log (Some w) self
   = Done (mk (compression_type self) (compression_level self) (Some w)))
  /\ (~ 10 <= w <= 31 <->
      exists message, set_window_log (Some w) self = CheckFailed message)
  /\ set_window_log None self
     = Done (mk (compression_type self) (compression_level self) None).
Proof.
  assert (Hw : 10 <= w <= 31 \/ ~ 10 <= w <= 31) by lia.
  split; [split|split; [split|reflexivity]].
  - apply set_window_log_done.
  - intros Hdone. destruct Hw as [Hw|Hw]; [exact Hw|].
    destruct (set_window_log_failed w self Hw) as [message Hfail].
    congruence.
  - apply set_window_log_failed.
  - intros Hfail Hin. apply (set_window_log_done w self) in Hin.
    exact (done_not_failed _ _ Hin Hfail).
Qed.

(** C7 (amended), on an uncompressed and on a Snappy object. *)
Lemma set_window_log_checks_range_only_witness :
  set_window_log (Some 10) (mk kNone 0 None) = Done (mk kNone 0 (Some 10))
  /\ (exists message,
        set_window_log (Some 32) (mk kSnappy 0 None) = CheckFailed message).
Proof.
  split.
  - apply (proj1 (proj1 (set_window_log_checks_range_only 10 (mk kNone 0 None)))).
    lia.
  - apply (proj1 (proj1 (proj2
             (set_window_log_checks_range_only 32 (mk kSnappy 0 None))))).
    lia.
Defined.






(** C9: [zstd_window_log()] has the precondition
    [compression_type() == kZstd].  Under it, it returns the configured
    window log as it is: an explicit value unchanged, an unset one as
    unset; on any other algorithm the call is a precondition failure. *)
Theorem zstd_window_log_contract (self : t) :
  (compression_type self = kZstd ->
   zstd_window_log self = Done (window_log self))
  /\ (compression_type self <> kZstd ->
      exists message, zstd_window_log self = CheckFailed message)
  /\ (forall level w, zstd_window_log (mk kZstd level (Some w)) = Done (Some w))
  /\ (forall level, zstd_window_log (mk kZstd level None) = Done None).
Proof.
  destruct self as [type level w]; simpl.
  repeat split.
  - intros ->. reflexivity.
  - intros H. destruct type; try congruence; eexists; reflexivity.
Qed.

Lemma zstd_window_log_contract_witness :
  zstd_window_log (mk kZstd 3 (Some 20)) = Done (Some 20)
  /\ (exists message, zstd_window_log CompressorOptions = CheckFailed message).
Proof.
  split.
  - apply (proj1 (zstd_window_log_contract (mk kZstd 3 (Some 20)))). reflexivity.
  - apply (proj1 (proj2 (zstd_window_log_contract CompressorOptions))).
    discriminate.
Defined.

(** C10: [set_uncompressed()], [set_brotli(level)], [set_zstd(level)] and
    [set_snappy()] write the algorithm and the level and leave
    [window_log] as it was; [set_window_log(w)] writes [window_log] and
    leaves the algorithm and the level as they were. *)
Theorem setters_frame (self : t) :
  window_log (set_uncompressed self) = window_log self
  /\ window_log (set_snappy self) = window_log self
  /\ (forall level self',
        set_brotli level self = Done self' ->
        window_log self' = window_log self)
  /\ (forall level self',
        set_zstd level self = Done self' ->
        window_log self' = window_log self)
  /\ (forall w self',
        set_window_log w self = Done self' ->
        compression_type self' = compression_type self
        /\ compression_level self' = compression_level self).
Proof.
  split; [reflexivity|]. split; [reflexivity|].
  split; [|split].
  - intros level self'. run_assertions; intros Heq; inversion Heq; reflexivity.
  - intros level self'. run_assertions; intros Heq; inversion Heq; reflexivity.
  - intros [w|] self'; run_assertions; intros Heq; inversion Heq; split; reflexivity.
Qed.

(** C10, on an object with a window log of 20. *)
Lemma setters_frame_witness :
  window_log (set_uncompressed (mk kZstd 3 (Some 20))) = Some 20
  /\ (forall self',
        set_brotli 9 (mk kZstd 3 (Some 20)) = Done self' ->
        window_log self' = window_log (mk kZstd 3 (Some 20)))
  /\ compression_type (mk kZstd 3 (Some 12)) = kZstd.
Proof.
  split; [|split].
  - apply (proj1 (setters_frame (mk kZstd 3 (Some 20)))).
  - apply (proj1 (proj2 (proj2 (setters_frame (mk kZstd 3 (Some 20)))))).
  - exact (proj1 (proj2 (proj2 (proj2 (proj2
             (setters_frame (mk kZstd 3 (Some 20))))))
             (Some 12) (mk kZstd 3 (Some 12)) eq_refl)).
Defined.

End SetterFacts.

(** ** The options parser against the grammar *)

Module ParserFacts.

Import Base CompressorOptions Grammar.

(** *** Texts *)

Lemma append_empty_r (s : string) : s ++ EmptyString = s.
Proof. induction s as [|c s IH]; simpl; [reflexivity | now rewrite IH]. Qed.

Lemma append_associative (a b c : string) : (a ++ b) ++ c = a ++ (b ++ c).
Proof. induction a as [|x a IH]; simpl; [reflexivity | now rewrite IH]. Qed.

Lemma occurs_append (c : ascii) (a b : string) :
  occurs c (a ++ b) <-> occurs c a \/ occurs c b.
Proof.
  induction a as [|x a IH]; simpl.
  - tauto.
  - rewrite IH. tauto.
Qed.

Lemma split_on_nonempty (separator : ascii) (text : string) :
  split_on separator text <> [].
Proof.
  destruct text as [|c rest]; simpl; [discriminate|].
  destruct (Ascii.eqb c separator); [discriminate|].
  destruct (split_on separator rest); discriminate.
Qed.

Lemma split_on_absent (separator : ascii) (text : string) :
  ~ occurs separator text -> split_on separator text = [text].
Proof.
  induction text as [|c rest IH]; simpl; intros Habsent; [reflexivity|].
  destruct (Ascii.eqb_spec c separator) as [->|Hc]; [tauto|].
  rewrite IH by tauto. reflexivity.
Qed.

Lemma split_on_append (separator : ascii) (segment rest : string) :
  ~ occurs separator segment ->
  split_on separator (segment ++ String separator rest)
  = segment :: split_on separator rest.
Proof.
  induction segment as [|c segment IH]; simpl; intros Habsent.
  - now rewrite Ascii.eqb_refl.
  - destruct (Ascii.eqb_spec c separator) as [->|Hc]; [tauto|].
    rewrite IH by tauto. reflexivity.
Qed.

Lemma join_cons (segment next : string) (rest : list string) :
  join (segment :: next :: rest) = segment ++ String comma (join (next :: rest)).
Proof. reflexivity. Qed.

Lemma join_split_on (text : string) : join (split_on comma text) = text.
Proof.
  induction text as [|c rest IH]; [reflexivity|].
  simpl split_on.
  destruct (split_on comma rest) as [|segment segments] eqn:Hsplit.
  { now apply split_on_nonempty in Hsplit. }
  destruct (Ascii.eqb_spec c comma) as [->|Hc].
  - rewrite join_cons, IH. reflexivity.
  - destruct segments as [|next segments].
    + simpl in *. now rewrite IH.
    + rewrite join_cons. rewrite join_cons in IH.
      rewrite <- IH. reflexivity.
Qed.

Lemma cut_at_whole (separator : ascii) (text key : string) :
  cut_at separator text = (key, None) -> text = key.
Proof.
  revert key; induction text as [|c rest IH]; simpl; intros key H.
  - now inversion H.
  - destruct (Ascii.eqb c separator); [discriminate H|].
    destruct (cut_at separator rest) as [key' value'].
    inversion H; subst. now rewrite (IH key' eq_refl).
Qed.

Lemma cut_at_parts (separator : ascii) (text key value : string) :
  cut_at separator text = (key, Some value) ->
  text = key ++ String separator value.
Proof.
  revert key; induction text as [|c rest IH]; simpl; intros key H.
  - discriminate H.
  - destruct (Ascii.eqb_spec c separator) as [->|Hc].
    + now inversion H.
    + destruct (cut_at separator rest) as [key' value'].
      inversion H; subst. simpl. now rewrite (IH key' eq_refl).
Qed.

(** *** Integers *)

Lemma digit_value_digit (c : ascii) (d : Z) :
  digit_value c = Some d <-> digit c d.
Proof.
  split.
  - destruct c as [[] [] [] [] [] [] [] []]; vm_compute; intros H;
      try discriminate H; injection H as <-; constructor.
  - intros []; reflexivity.
Qed.

Lemma parse_digits_snoc (s : string) (c : ascii) (accumulator : Z) :
  parse_digits accumulator (s ++ String c EmptyString)
  = match parse_digits accumulator s with
    | Some v =>
        match digit_value c with
        | Some d => Some (10 * v + d)
        | None => None
        end
    | None => None
    end.
Proof.
  revert accumulator; induction s as [|x s IH]; intros accumulator; simpl.
  - destruct (digit_value c); reflexivity.
  - destruct (digit_value x); [apply IH | reflexivity].
Qed.

Lemma numeral_parse_digits (s : string) (n : Z) :
  numeral s n -> parse_digits 0 s = Some n.
Proof.
  induction 1 as [c d Hd | s n c d _ IH Hd];
    apply digit_value_digit in Hd.
  - simpl. now rewrite Hd.
  - now rewrite parse_digits_snoc, IH, Hd.
Qed.

Lemma parse_digits_numeral (s prefix : string) (accumulator v : Z) :
  numeral prefix accumulator ->
  parse_digits accumulator s = Some v ->
  numeral (prefix ++ s) v.
Proof.
  revert prefix accumulator.
  induction s as [|c s IH]; simpl; intros prefix accumulator Hprefix H.
  - rewrite append_empty_r. now inversion H; subst.
  - destruct (digit_value c) as [d|] eqn:Hd; [|discriminate H].
    apply digit_value_digit in Hd.
    replace (prefix ++ String c s)
      with ((prefix ++ String c EmptyString) ++ s)
      by now rewrite append_associative.
    apply (IH _ (10 * accumulator + d)); [|exact H].
    now constructor.
Qed.

Lemma parse_digits_numeral_nonempty (c : ascii) (s : string) (v : Z) :
  parse_digits 0 (String c s) = Some v -> numeral (String c s) v.
Proof.
  simpl. destruct (digit_value c) as [d|] eqn:Hd; [|discriminate].
  apply digit_value_digit in Hd. intros H.
  apply (parse_digits_numeral s (String c EmptyString) d v); [|exact H].
  now constructor.
Qed.

Lemma numeral_head (s : string) (n : Z) :
  numeral s n -> exists c rest d, s = String c rest /\ digit c d.
Proof.
  induction 1 as [c d Hd | s n c d _ (c0 & rest & d0 & -> & Hd0) Hd].
  - now exists c, EmptyString, d.
  - now exists c0, (rest ++ String c EmptyString), d0.
Qed.

Lemma numeral_occurs (x : ascii) (s : string) (n : Z) :
  numeral s n -> occurs x s -> exists d, digit x d.
Proof.
  induction 1 as [c d Hd | s n c d _ IH Hd]; simpl.
  - intros [<-|[]]. now exists d.
  - rewrite occurs_append. simpl. intros [H|[<-|[]]]; [auto | now exists d].
Qed.

Lemma integer_occurs (x : ascii) (s : string) (n : Z) :
  integer s n -> occurs x s -> x = minus \/ exists d, digit x d.
Proof.
  intros [s' n' H | s' n' H]; simpl.
  - intros Hx. right. exact (numeral_occurs x s' n' H Hx).
  - intros [<-|Hx]; [now left|]. right. exact (numeral_occurs x s' n' H Hx).
Qed.

Lemma integer_head (s : string) (n : Z) :
  integer s n ->
  exists c rest, s = String c rest /\ (c = minus \/ exists d, digit c d).
Proof.
  intros [s' n' H | s' n' H].
  - destruct (numeral_head _ _ H) as (c & rest & d & -> & Hd).
    exists c, rest. split; [reflexivity|]. right. now exists d.
  - exists minus, s'. now split; [|left].
Qed.

Lemma digit_not_minus (c : ascii) (d : Z) : digit c d -> Ascii.eqb c minus = false.
Proof. intros []; reflexivity. Qed.

Lemma parse_integer_integer (s : string) (n : Z) :
  parse_integer s = Some n <-> integer s n.
Proof.
  split.
  - unfold parse_integer. destruct s as [|c rest]; [discriminate|].
    destruct (Ascii.eqb_spec c minus) as [->|Hc].
    + destruct rest as [|c' rest']; [discriminate|].
      destruct (parse_digits 0 (String c' rest')) as [v|] eqn:Hv;
        [|discriminate].
      simpl. intros H; inversion H; subst.
      apply integer_minus. now apply parse_digits_numeral_nonempty.
    + intros H. apply integer_plain. now apply parse_digits_numeral_nonempty.
  - intros [s' n' H | s' n' H].
    + destruct (numeral_head _ _ H) as (c & rest & d & -> & Hd).
      unfold parse_integer. rewrite (digit_not_minus c d Hd).
      now apply numeral_parse_digits.
    + destruct (numeral_head _ _ H) as (c & rest & d & -> & Hd).
      unfold parse_integer. rewrite Ascii.eqb_refl.
      now rewrite (numeral_parse_digits _ _ H).
Qed.

(** An integer of the grammar has one value. *)
Lemma integer_functional (s : string) (n n' : Z) :
  integer s n -> integer s n' -> n = n'.
Proof.
  rewrite <- !parse_integer_integer. congruence.
Qed.

Lemma integer_is_not_auto (s : string) (n : Z) :
  integer s n -> String.eqb s "auto" = false.
Proof.
  intros H. destruct (integer_head s n H) as (c & rest & -> & [->|[d Hd]]).
  - reflexivity.
  - destruct Hd; reflexivity.
Qed.

(** *** One option *)

Lemma in_range_iff (minimum maximum n : Z) :
  in_range minimum maximum n = true <-> minimum <= n <= maximum.
Proof. unfold in_range. rewrite andb_true_iff, !Z.leb_le. tauto. Qed.

Lemma option_is_not_empty (o : string) (m : Mutation) :
  option_denotes o m -> o <> EmptyString.
Proof. intros []; discriminate. Qed.

Lemma comma_is_no_digit (d : Z) : ~ digit comma d.
Proof. intros H; inversion H. Qed.

Lemma integer_has_no_comma (s : string) (n : Z) :
  integer s n -> ~ occurs comma s.
Proof.
  intros H Hc. destruct (integer_occurs comma s n H Hc) as [E|[d Hd]].
  - discriminate E.
  - exact (comma_is_no_digit d Hd).
Qed.

Lemma option_has_no_comma (o : string) (m : Mutation) :
  option_denotes o m -> ~ occurs comma o.
Proof.
  intros [ | |s n Hs _| |s n Hs _| | |s n Hs _]; simpl;
    try (pose proof (integer_has_no_comma s n Hs));
    intuition discriminate.
Qed.

Lemma parse_level_sound (key : string) (value : option string)
    (minimum maximum default : Z) (setter : Z -> Mutation) (m : Mutation) :
  parse_level key value minimum maximum default setter = inr m ->
  (value = None /\ m = setter default)
  \/ exists s n, value = Some s /\ integer s n
                 /\ minimum <= n <= maximum /\ m = setter n.
Proof.
  unfold parse_level. destruct value as [s|].
  - destruct (parse_integer s) as [n|] eqn:Hn; [|discriminate].
    destruct (in_range minimum maximum n) eqn:Hr; [|discriminate].
    intros H; inversion H; subst. right. exists s, n.
    apply parse_integer_integer in Hn. apply in_range_iff in Hr. auto.
  - intros H; inversion H; subst. now left.
Qed.

Lemma parse_level_complete (key s : string) (n : Z)
    (minimum maximum default : Z) (setter : Z -> Mutation) :
  integer s n -> minimum <= n <= maximum ->
  parse_level key (Some s) minimum maximum default setter = inr (setter n).
Proof.
  intros Hs Hn. unfold parse_level.
  apply parse_integer_integer in Hs. rewrite Hs.
  apply in_range_iff in Hn. now rewrite Hn.
Qed.

(** The parser of one segment accepts the options of the grammar. *)
Lemma parse_option_complete (segment : string) (m : Mutation) :
  option_denotes segment m -> parse_option segment = inr m.
Proof.
  intros [ | |s n Hs Hn| |s n Hs Hn| | |s n Hs Hn]; try reflexivity.
  - exact (parse_level_complete "brotli" s n
             kMinBrotli kMaxBrotli kDefaultBrotli SetBrotli Hs Hn).
  - exact (parse_level_complete "zstd" s n
             kMinZstd kMaxZstd kDefaultZstd SetZstd Hs Hn).
  - unfold parse_option; simpl. unfold parse_window_log.
    rewrite (integer_is_not_auto s n Hs).
    apply parse_integer_integer in Hs. rewrite Hs.
    apply (in_range_iff 10 31) in Hn.
    change (in_range kMinWindowLog kMaxWindowLog n) with (in_range 10 31 n).
    now rewrite Hn.
Qed.

(** The parser of one segment accepts nothing but the options of the
    grammar. *)
Lemma parse_option_sound (segment : string) (m : Mutation) :
  parse_option segment = inr m -> option_denotes segment m.
Proof.
  unfold parse_option.
  destruct (cut_at colon segment) as [key value] eqn:Hcut.
  destruct (String.eqb_spec key "uncompressed") as [->|_].
  { destruct value; [discriminate|]. intros H; inversion H; subst.
    apply cut_at_whole in Hcut as ->. constructor. }
  destruct (String.eqb_spec key "brotli") as [->|_].
  { intros H. apply parse_level_sound in H
      as [[-> ->]|(s & n & -> & Hs & Hn & ->)].
    - apply cut_at_whole in Hcut as ->. constructor.
    - apply cut_at_parts in Hcut as ->.
      now apply (option_brotli_level s n). }
  destruct (String.eqb_spec key "zstd") as [->|_].
  { intros H. apply parse_level_sound in H
      as [[-> ->]|(s & n & -> & Hs & Hn & ->)].
    - apply cut_at_whole in Hcut as ->. constructor.
    - apply cut_at_parts in Hcut as ->.
      now apply (option_zstd_level s n). }
  destruct (String.eqb_spec key "snappy") as [->|_].
  { destruct value; [discriminate|]. intros H; inversion H; subst.
    apply cut_at_whole in Hcut as ->. constructor. }
  destruct (String.eqb_spec key "window_log") as [->|_]; [|discriminate].
  unfold parse_window_log. destruct value as [s|]; [|discriminate].
  apply cut_at_parts in Hcut as ->.
  destruct (String.eqb_spec s "auto") as [->|_].
  { intros H; inversion H; subst. constructor. }
  destruct (parse_integer s) as [n|] eqn:Hs; [|discriminate].
  destruct (in_range kMinWindowLog kMaxWindowLog n) eqn:Hn; [|discriminate].
  intros H; inversion H; subst.
  apply parse_integer_integer in Hs. apply (in_range_iff 10 31) in Hn.
  now apply (option_window_log s n).
Qed.

Lemma cut_at_key (separator : ascii) (text key : string)
    (value : option string) :
  cut_at separator text = (key, value) ->
  ~ occurs separator key
  /\ text = key ++ match value with
                   | Some v => String separator v
                   | None => EmptyString
                   end.
Proof.
  revert key; induction text as [|c rest IH]; simpl; intros key H.
  - inversion H; subst. simpl. tauto.
  - destruct (Ascii.eqb_spec c separator) as [->|Hc].
    + inversion H; subst. simpl. tauto.
    + destruct (cut_at separator rest) as [key' value'].
      inversion H; subst.
      destruct (IH key' eq_refl) as [Habsent Hrest].
      split; [simpl; tauto|]. simpl. now rewrite <- Hrest.
Qed.

(** A rejected segment is no option of the grammar; the error is the whole
    segment when its keyword is none of the grammar, and its keyword and
    value otherwise. *)
Lemma parse_option_rejects (segment : string) (e : ParseError) :
  parse_option segment = inl e ->
  ~ is_option segment
  /\ exists key value,
       cut_at colon segment = (key, value)
       /\ ((~ In key keywords /\ e = UnknownOption segment)
           \/ (In key keywords /\ e = InvalidValue key value)).
Proof.
  intros He. split.
  - intros [m Hm]. apply parse_option_complete in Hm. congruence.
  - revert He. unfold parse_option.
    destruct (cut_at colon segment) as [key value].
    intros He. exists key, value. split; [reflexivity|]. revert He.
    unfold parse_flag, parse_level, parse_window_log, keywords.
    repeat match goal with
           | |- context [String.eqb ?a ?b] =>
               destruct (String.eqb_spec a b) as [->|?]
           end;
      repeat match goal with
             | |- context [match ?x with _ => _ end] => destruct x
             end;
      intros H; inversion H; subst; simpl; intuition congruence.
Qed.

Lemma mentions_middle (before token after : string) :
  mentions (before ++ token ++ after) token.
Proof. now exists before, after. Qed.

(** A mutation of the grammar passes the assertions of its setter and
    overwrites the fields it stands for. *)
Lemma option_mutation_applies (segment : string) (m : Mutation) (self : t) :
  option_denotes segment m ->
  apply_mutation m self = Done (overwrite self m).
Proof.
  intros [ | |s n Hs Hn| |s n Hs Hn| | |s n Hs Hn]; simpl.
  - reflexivity.
  - now apply SetterFacts.set_brotli_done.
  - now apply SetterFacts.set_brotli_done.
  - now apply SetterFacts.set_zstd_done.
  - now apply SetterFacts.set_zstd_done.
  - reflexivity.
  - reflexivity.
  - now apply SetterFacts.set_window_log_done.
Qed.

(** *** A whole text *)

Lemma options_denote_of_grammar (text : string) (ms : list Mutation) :
  options_denote text ms -> Forall of_grammar ms.
Proof.
  induction 1 as [|o m Hm|rest ms _ IH|o m rest ms Hm _ IH].
  - constructor.
  - repeat constructor. now exists o.
  - exact IH.
  - constructor; [now exists o | exact IH].
Qed.

Lemma apply_mutations_overwrite (ms : list Mutation) (self : t) :
  Forall of_grammar ms ->
  apply_mutations ms self = Done (fold_left overwrite ms self).
Proof.
  intros Hms; revert self.
  induction Hms as [|m ms [segment Hm] _ IH]; intros self; simpl.
  - reflexivity.
  - rewrite (option_mutation_applies segment m self Hm). simpl. apply IH.
Qed.

(** After the mutations, each field holds what the last mutation that
    writes it wrote, or its old value when none does. *)
Lemma fold_overwrite_last (ms : list Mutation) (self : t) :
  (compression_type (fold_left overwrite ms self),
   compression_level (fold_left overwrite ms self))
  = match last_written algorithm_written ms with
    | Some written => written
    | None => (compression_type self, compression_level self)
    end
  /\ window_log (fold_left overwrite ms self)
     = match last_written window_log_written ms with
       | Some written => written
       | None => window_log self
       end.
Proof.
  revert self; induction ms as [|m ms IH]; intros self; simpl.
  - split; reflexivity.
  - destruct (IH (overwrite self m)) as [Halgorithm Hwindow].
    rewrite Halgorithm, Hwindow. split.
    + destruct (last_written algorithm_written ms); [reflexivity|].
      simpl. destruct (algorithm_written m) as [[type level]|]; reflexivity.
    + destruct (last_written window_log_written ms); [reflexivity|].
      simpl. destruct (window_log_written m); reflexivity.
Qed.

Lemma apply_segments_option (o : string) (m : Mutation)
    (rest : list string) (self : t) :
  option_denotes o m ->
  apply_segments (o :: rest) self = apply_segments rest (overwrite self m).
Proof.
  intros Hm. simpl.
  destruct (String.eqb_spec o EmptyString) as [E|_].
  { now apply option_is_not_empty in Hm. }
  rewrite (parse_option_complete o m Hm).
  now rewrite (option_mutation_applies o m self Hm).
Qed.

(** A text of the grammar is parsed, and the parser applies the setter
    calls it denotes, in order. *)
Lemma FromString_denoted (text : string) (ms : list Mutation) :
  options_denote text ms ->
  forall self, FromString text self = Done (Parsed (fold_left overwrite ms self)).
Proof.
  unfold FromString.
  induction 1 as [|o m Hm|rest ms _ IH|o m rest ms Hm _ IH]; intros self.
  - reflexivity.
  - rewrite (split_on_absent comma o (option_has_no_comma o m Hm)).
    now rewrite (apply_segments_option o m [] self Hm).
  - simpl. apply IH.
  - rewrite (split_on_append comma o rest (option_has_no_comma o m Hm)).
    rewrite (apply_segments_option o m _ self Hm). apply IH.
Qed.

(** What the parser does with a list of segments: either every segment is
    empty or an option, and the setter calls are applied in order; or the
    first segment that is neither is reported. *)
Lemma apply_segments_outcome (segments : list string) (self : t) :
  (exists ms,
      options_denote (join segments) ms
      /\ apply_segments segments self
         = Done (Parsed (fold_left overwrite ms self)))
  \/ (exists before segment after e,
         segments = (before ++ segment :: after)%list
         /\ Forall (fun s => s = EmptyString \/ is_option s) before
         /\ segment <> EmptyString
         /\ parse_option segment = inl e
         /\ apply_segments segments self = Done (Rejected (describe e))).
Proof.
  revert self; induction segments as [|segment rest IH]; intros self.
  { left. exists []. split; [constructor | reflexivity]. }
  destruct (String.eqb_spec segment EmptyString) as [->|Hsegment].
  - (* an empty segment is skipped *)
    destruct (IH self) as [(ms & Hms & Hrun)|
                           (before & bad & after & e & -> & Hbefore & H)].
    + left. exists ms. split; [|exact Hrun].
      destruct rest as [|next rest]; [exact Hms|].
      rewrite join_cons. now apply options_skip.
    + right. exists (EmptyString :: before), bad, after, e.
      split; [reflexivity|]. split; [constructor; auto|exact H].
  - destruct (parse_option segment) as [e|m] eqn:Hparse.
    + (* the segment is rejected *)
      right. exists [], segment, rest, e.
      split; [reflexivity|]. split; [constructor|]. split; [exact Hsegment|].
      split; [exact Hparse|].
      simpl. destruct (String.eqb_spec segment EmptyString); [tauto|].
      now rewrite Hparse.
    + (* the segment is an option *)
      apply parse_option_sound in Hparse.
      rewrite (apply_segments_option segment m rest self Hparse).
      destruct rest as [|next rest].
      { left. exists [m]. split; [now constructor | reflexivity]. }
      destruct (IH (overwrite self m))
        as [(ms & Hms & Hrun)|
            (before & bad & after & e & Hrest & Hbefore & H)].
      * left. exists (m :: ms). split; [|exact Hrun].
        rewrite join_cons. now apply options_more.
      * right. exists (segment :: before), bad, after, e.
        split; [now rewrite Hrest|].
        split; [constructor; [right; now exists m | exact Hbefore] | exact H].
Qed.

(** [FromString] always returns a status. *)
Lemma FromString_returns (text : string) (self : t) :
  exists r, FromString text self = Done r.
Proof.
  unfold FromString.
  destruct (apply_segments_outcome (split_on comma text) self)
    as [(ms & _ & ->)|(before & bad & after & e & _ & _ & _ & _ & ->)];
    eexists; reflexivity.
Qed.

(** [FromString] returns [ok] on the texts of the grammar and on no
    other. *)
Lemma FromString_ok_iff (text : string) (self : t) :
  conforms text <-> exists options, FromString text self = Done (Parsed options).
Proof.
  split.
  - intros [ms Hms]. exists (fold_left overwrite ms self).
    exact (FromString_denoted text ms Hms self).
  - intros [options Hparsed]. unfold FromString in Hparsed.
    destruct (apply_segments_outcome (split_on comma text) self)
      as [(ms & Hms & _)|(before & bad & after & e & _ & _ & _ & _ & Hrejected)].
    + exists ms. now rewrite join_split_on in Hms.
    + congruence.
Qed.

(** *** The claims about [FromString] *)

(** C1: for every text of the grammar, parsing splits the text on commas,
    skips the empty segments and applies the others from left to right,
    each as its setter would: the result is that of the setter calls in
    order, so the algorithm and level are those of the last algorithm
    option and the window log is that of the last [window_log] option (and
    a field that no option writes keeps its value).  ["brotli,zstd"] gives
    Zstd with the Zstd default level, and ["zstd:5,window_log:auto"] gives
    Zstd, level 5, window log unset. *)
Theorem FromString_applies_options_in_order :
  (forall (text : string) (ms : list Mutation) (self : t),
      options_denote text ms ->
      exists options,
        FromString text self = Done (Parsed options)
        /\ apply_mutations ms self = Done options
        /\ (compression_type options, compression_level options)
           = match last_written algorithm_written ms with
             | Some written => written
             | None => (compression_type self, compression_level self)
             end
        /\ window_log options
           = match last_written window_log_written ms with
             | Some written => written
             | None => window_log self
             end)
  /\ parse "brotli,zstd" = Done (Parsed (mk kZstd kDefaultZstd None))
  /\ parse "zstd:5,window_log:auto" = Done (Parsed (mk kZstd 5 None))
  /\ parse ",brotli:9,,window_log:12,snappy," = Done (Parsed (mk kSnappy 0 (Some 12))).
Proof.
  split; [|repeat split].
  intros text ms self Hms.
  exists (fold_left overwrite ms self).
  split; [exact (FromString_denoted text ms Hms self)|].
  split.
  - apply apply_mutations_overwrite.
    exact (options_denote_of_grammar text ms Hms).
  - apply fold_overwrite_last.
Qed.

(** C1, on ["zstd:5,window_log:auto"] parsed into an object that had a
    window log of 20. *)
Lemma FromString_applies_options_in_order_witness :
  exists options,
    FromString "zstd:5,window_log:auto" (mk kBrotli 6 (Some 20))
    = Done (Parsed options)
    /\ apply_mutations [SetZstd 5; SetWindowLog None] (mk kBrotli 6 (Some 20))
       = Done options
    /\ (compression_type options, compression_level options) = (kZstd, 5)
    /\ window_log options = None.
Proof.
  apply (proj1 FromString_applies_options_in_order
               "zstd:5,window_log:auto" [SetZstd 5; SetWindowLog None]
               (mk kBrotli 6 (Some 20))).
  apply (options_more "zstd:5" (SetZstd 5) "window_log:auto" [SetWindowLog None]).
  - apply (option_zstd_level "5" 5).
    + apply integer_plain, numeral_digit, digit_5.
    + lia.
  - apply options_last, option_window_log_auto.
Defined.

(** C4: [FromString] never fails an assertion: it always returns a status,
    and the status is ok exactly on the texts of the grammar.  On any other
    text it is not ok and reports the first segment that is no option.
    The message is never empty and holds the text of the offending token:
    the whole segment when its keyword (the text before the first colon)
    is none of the grammar's, and the keyword together with the value (the
    text after the first colon, nothing when there is no colon) when the
    keyword does not take that value. *)
Theorem FromString_status (text : string) (self : t) :
  (exists r, FromString text self = Done r /\ (ok r = true <-> conforms text))
  /\ (~ conforms text ->
      exists before segment after key value message,
        split_on comma text = (before ++ segment :: after)%list
        /\ Forall (fun s => s = EmptyString \/ is_option s) before
        /\ segment <> EmptyString
        /\ ~ is_option segment
        /\ ~ occurs colon key
        /\ segment = key ++ match value with
                            | Some v => String colon v
                            | None => EmptyString
                            end
        /\ FromString text self = Done (Rejected message)
        /\ ((~ In key ["uncompressed"; "brotli"; "zstd"; "snappy"; "window_log"]
             /\ message = "Unknown option " ++ segment)
            \/ (In key ["uncompressed"; "brotli"; "zstd"; "snappy"; "window_log"]
                /\ message
                   = "Option " ++ key ++ ": invalid value: "
                     ++ match value with
                        | Some v => v
                        | None => EmptyString
                        end))
        /\ message <> EmptyString
        /\ mentions message key
        /\ (forall v, value = Some v -> mentions message v)).
Proof.
  split.
  { destruct (FromString_returns text self) as [r Hr]. exists r.
    split; [exact Hr|].
    rewrite (FromString_ok_iff text self), Hr.
    destruct r as [options|message]; simpl; split.
    - intros _. now exists options.
    - reflexivity.
    - discriminate.
    - intros [options H]. discriminate H. }
  intros Hmalformed. unfold FromString.
  destruct (apply_segments_outcome (split_on comma text) self)
    as [(ms & Hms & _)|
        (before & bad & after & e & Hsplit & Hbefore & Hbad & Hparse & Hrun)].
  { exfalso. apply Hmalformed. exists ms. now rewrite join_split_on in Hms. }
  destruct (parse_option_rejects bad e Hparse)
    as [Hno (key & value & Hcut & Hkind)].
  destruct (cut_at_key colon bad key value Hcut) as [Hkey Hsegment].
  exists before, bad, after, key, value, (describe e).
  do 7 (split; [assumption|]).
  destruct Hkind as [[Hunknown ->]|[Hknown ->]]; simpl describe.
  - split; [left; now split|].
    split; [discriminate|].
    split.
    + rewrite Hsegment.
      exact (mentions_middle "Unknown option " key _).
    + intros v ->. rewrite Hsegment.
      exists ("Unknown option " ++ key ++ String colon EmptyString), EmptyString.
      rewrite append_empty_r, !append_associative. reflexivity.
  - split; [right; now split|].
    split; [discriminate|].
    split.
    + exact (mentions_middle "Option " key _).
    + intros v ->.
      exists ("Option " ++ key ++ ": invalid value: "), EmptyString.
      now rewrite append_empty_r, !append_associative.
Qed.

(** C4, on a text whose second segment has an unknown keyword. *)
Lemma FromString_status_witness :
  exists before segment after key value message,
    split_on comma "zstd:5,lz4:1,brotli:99"
    = (before ++ segment :: after)%list
    /\ Forall (fun s => s = EmptyString \/ is_option s) before
    /\ segment <> EmptyString
    /\ ~ is_option segment
    /\ ~ occurs colon key
    /\ segment = key ++ match value with
                        | Some v => String colon v
                        | None => EmptyString
                        end
    /\ FromString "zstd:5,lz4:1,brotli:99" CompressorOptions
       = Done (Rejected message)
    /\ ((~ In key ["uncompressed"; "brotli"; "zstd"; "snappy"; "window_log"]
         /\ message = "Unknown option " ++ segment)
        \/ (In key ["uncompressed"; "brotli"; "zstd"; "snappy"; "window_log"]
            /\ message
               = "Option " ++ key ++ ": invalid value: "
                 ++ match value with
                    | Some v => v
                    | None => EmptyString
                    end))
    /\ message <> EmptyString
    /\ mentions message key
    /\ (forall v, value = Some v -> mentions message v).
Proof.
  apply (proj2 (FromString_status "zstd:5,lz4:1,brotli:99" CompressorOptions)).
  intros Hconforms.
  apply (FromString_ok_iff _ CompressorOptions) in Hconforms.
  destruct Hconforms as [options Hparsed].
  vm_compute in Hparsed. discriminate Hparsed.
Defined.

(** The messages of the three kinds of malformed text. *)
Example FromString_messages :
  parse "gzip" = Done (Rejected "Unknown option gzip")
  /\ parse "brotli,lz4:1" = Done (Rejected "Unknown option lz4:1")
  /\ parse ":5" = Done (Rejected "Unknown option :5")
  /\ parse "window_log" = Done (Rejected "Option window_log: invalid value: ")
  /\ parse "brotli:" = Done (Rejected "Option brotli: invalid value: ")
  /\ parse "brotli:12" = Done (Rejected "Option brotli: invalid value: 12")
  /\ parse "zstd:-131073" = Done (Rejected "Option zstd: invalid value: -131073")
  /\ parse "window_log:32" = Done (Rejected "Option window_log: invalid value: 32")
  /\ parse "window_log:automatic"
     = Done (Rejected "Option window_log: invalid value: automatic")
  /\ parse "brotli:5x" = Done (Rejected "Option brotli: invalid value: 5x").
Proof. repeat split. Qed.

Lemma FromString_commas (n : nat) (self : t) :
  FromString (commas n) self = Done (Parsed self).
Proof.
  induction n as [|n IH]; [reflexivity|].
  unfold FromString in *. simpl. exact IH.
Qed.

(** C5: a default-constructed [CompressorOptions] has the algorithm
    Brotli, the Brotli default level 6 and no window log; parsing the
    empty text succeeds and leaves the object in this state, because the
    split has no segment that is not empty, so no setter is called (and so
    for any text of commas only, on any object). *)
Theorem default_options_and_empty_text :
  compression_type CompressorOptions = kBrotli
  /\ compression_level CompressorOptions = 6
  /\ window_log CompressorOptions = None
  /\ parse EmptyString = Done (Parsed CompressorOptions)
  /\ nonempty_segments EmptyString = []
  /\ options_denote EmptyString []
  /\ (forall (n : nat) (self : t),
        nonempty_segments (commas n) = []
        /\ FromString (commas n) self = Done (Parsed self)).
Proof.
  do 5 (split; [reflexivity|]).
  split; [constructor|].
  intros n self. split; [|apply FromString_commas].
  unfold nonempty_segments.
  induction n as [|n IH]; [reflexivity|]. simpl. exact IH.
Qed.

End ParserFacts.

(** ** Chains of setter calls *)

Module ChainFacts.

Import Base CompressorOptions Grammar Chains.

Lemma in_bounds_decided (m : Mutation) : in_bounds m \/ ~ in_bounds m.
Proof.
  destruct m as [ |level|level| |[w|]]; simpl; auto;
    cbv [kMinBrotli kMaxBrotli kMinZstd kMaxZstd];
    rewrite ?SetterFacts.kMinWindowLog_value, ?SetterFacts.kMaxWindowLog_value;
    cbv [BrotliWriterBase.Options.kMinCompressionLevel
         BrotliWriterBase.Options.kMaxCompressionLevel
         ZstdWriterBase.Options.kMinCompressionLevel
         ZstdWriterBase.Options.kMaxCompressionLevel]; lia.
Qed.

(** A call within the bounds of its setter returns, with the fields it
    writes overwritten. *)
Lemma call_in_bounds (m : Mutation) (self : t) :
  in_bounds m -> apply_mutation m self = Done (overwrite self m).
Proof.
  destruct m as [ |level|level| |[w|]]; simpl; intros H.
  - reflexivity.
  - now apply SetterFacts.set_brotli_done.
  - now apply SetterFacts.set_zstd_done.
  - reflexivity.
  - now apply SetterFacts.set_window_log_done.
  - reflexivity.
Qed.

(** A call outside the bounds of its setter fails an assertion. *)
Lemma call_out_of_bounds (m : Mutation) (self : t) :
  ~ in_bounds m -> exists message, apply_mutation m self = CheckFailed message.
Proof.
  destruct m as [ |level|level| |[w|]]; simpl; intros H; try tauto.
  - now apply SetterFacts.set_brotli_failed.
  - now apply SetterFacts.set_zstd_failed.
  - now apply SetterFacts.set_window_log_failed.
Qed.

(** A call that returns was within bounds and overwrote its fields. *)
Lemma call_returned (m : Mutation) (self self' : t) :
  apply_mutation m self = Done self' ->
  in_bounds m /\ self' = overwrite self m.
Proof.
  intros Hdone. destruct (in_bounds_decided m) as [Hin|Hout].
  - split; [exact Hin|]. rewrite (call_in_bounds m self Hin) in Hdone.
    now inversion Hdone.
  - destruct (call_out_of_bounds m self Hout) as [message Hfail]. congruence.
Qed.

Lemma chain_in_bounds (ms : list Mutation) (self : t) :
  Forall in_bounds ms ->
  apply_mutations ms self = Done (fold_left overwrite ms self).
Proof.
  intros Hms; revert self.
  induction Hms as [|m ms Hm _ IH]; intros self; simpl.
  - reflexivity.
  - rewrite (call_in_bounds m self Hm). simpl. apply IH.
Qed.

Lemma chain_returned (ms : list Mutation) (self self' : t) :
  apply_mutations ms self = Done self' ->
  Forall in_bounds ms /\ self' = fold_left overwrite ms self.
Proof.
  revert self; induction ms as [|m ms IH]; intros self; simpl.
  - intros H; inversion H. split; [constructor | reflexivity].
  - destruct (apply_mutation m self) as [next|message] eqn:Hm; simpl;
      [|discriminate].
    apply call_returned in Hm as [Hin ->].
    intros H. destruct (IH _ H) as [Hms ->]. split; [now constructor | reflexivity].
Qed.

Lemma chain_out_of_bounds (ms : list Mutation) (self : t) :
  ~ Forall in_bounds ms ->
  exists message, apply_mutations ms self = CheckFailed message.
Proof.
  intros Hout.
  destruct (apply_mutations ms self) as [self'|message] eqn:Hrun.
  - apply chain_returned in Hrun as [Hms _]. tauto.
  - now exists message.
Qed.

(** X1: whether a chain of setter calls returns depends on the arguments of
    the calls alone: it returns exactly when every argument is within the
    bounds that its setter asserts, whatever the object is and whatever
    the earlier calls of the chain have set; otherwise an assertion
    fails. *)
Theorem chain_returns_iff_in_bounds (ms : list Mutation) (self : t) :
  (Forall in_bounds ms <->
   exists self', apply_mutations ms self = Done self')
  /\ (~ Forall in_bounds ms <->
      exists message, apply_mutations ms self = CheckFailed message).
Proof.
  split; split.
  - intros Hms. eexists. now apply chain_in_bounds.
  - intros [self' Hrun]. now apply chain_returned in Hrun.
  - apply chain_out_of_bounds.
  - intros [message Hfail] Hms.
    rewrite (chain_in_bounds ms self Hms) in Hfail. discriminate Hfail.
Qed.

(** X2: in a chain of setter calls that returns, the last call wins, field
    by field: the algorithm and level are those of the last algorithm
    setter called and the window log is that of the last
    [set_window_log]; a field for which the chain has no call keeps its
    value. *)
Theorem chain_last_call_wins (ms : list Mutation) (self self' : t) :
  apply_mutations ms self = Done self' ->
  (compression_type self', compression_level self')
  = match last_written algorithm_written ms with
    | Some written => written
    | None => (compression_type self, compression_level self)
    end
  /\ window_log self'
     = match last_written window_log_written ms with
       | Some written => written
       | None => window_log self
       end.
Proof.
  intros Hrun. apply chain_returned in Hrun as [_ ->].
  apply ParserFacts.fold_overwrite_last.
Qed.

(** X2, on [set_zstd(5).set_window_log(20).set_brotli(9).set_window_log(12)]. *)
Lemma chain_last_call_wins_witness :
  (compression_type (mk kBrotli 9 (Some 12)),
   compression_level (mk kBrotli 9 (Some 12))) = (kBrotli, 9)
  /\ window_log (mk kBrotli 9 (Some 12)) = Some 12.
Proof.
  apply (chain_last_call_wins
           [SetZstd 5; SetWindowLog (Some 20); SetBrotli 9; SetWindowLog (Some 12)]
           CompressorOptions (mk kBrotli 9 (Some 12))).
  reflexivity.
Defined.

Lemma default_is_well_formed : well_formed CompressorOptions.
Proof. split; [vm_compute; split; discriminate | exact I]. Qed.

Lemma overwrite_well_formed (m : Mutation) (self : t) :
  in_bounds m -> well_formed self -> well_formed (overwrite self m).
Proof.
  destruct self as [type level w].
  destruct m as [ |l|l| |[w'|]]; unfold well_formed; simpl;
    intros Hm [Hlevel Hw]; auto.
Qed.

Lemma chain_keeps_well_formed (ms : list Mutation) (self self' : t) :
  well_formed self ->
  apply_mutations ms self = Done self' ->
  well_formed self'.
Proof.
  intros Hself Hrun. apply chain_returned in Hrun as [Hms ->].
  revert self Hself. induction Hms as [|m ms Hm _ IH]; intros self Hself; simpl.
  - exact Hself.
  - apply IH. now apply overwrite_well_formed.
Qed.

Lemma algorithm_call_in_bounds (self : t) :
  well_formed self -> in_bounds (algorithm_call self).
Proof.
  destruct self as [[] level w]; unfold well_formed, algorithm_call; simpl;
    tauto.
Qed.

Lemma window_log_call_in_bounds (self : t) :
  well_formed self -> in_bounds (SetWindowLog (window_log self)).
Proof.
  destruct self as [type level [w|]]; unfold well_formed; simpl; tauto.
Qed.

Lemma replay_overwrites (self start : t) :
  well_formed self -> fold_left overwrite (replay self) start = self.
Proof.
  destruct self as [[] level w]; unfold well_formed; simpl;
    intros [Hlevel _]; unfold overwrite; simpl; congruence.
Qed.

Lemma replay_returns (self start : t) :
  well_formed self ->
  apply_mutations (replay self) start = Done self.
Proof.
  intros Hself.
  rewrite chain_in_bounds.
  - now rewrite replay_overwrites.
  - repeat constructor.
    + now apply algorithm_call_in_bounds.
    + now apply window_log_call_in_bounds.
Qed.

(** X3: replaying what the three accessors of an object return, the setter
    of its algorithm with its level and then [set_window_log] with its
    window log, on any object whatever, passes every assertion and gives
    the object back: a well-formed object is described by its accessors
    in full. *)
Theorem replay_rebuilds (self start : t) :
  well_formed self ->
  apply_mutations (replay self) start = Done self.
Proof. exact (replay_returns self start). Qed.

(** X3, on a Zstd object with level -7 and window log 31, rebuilt on an
    uncompressed one. *)
Lemma replay_rebuilds_witness :
  apply_mutations (replay (mk kZstd (-7) (Some 31))) (mk kNone 0 None)
  = Done (mk kZstd (-7) (Some 31)).
Proof.
  apply (replay_rebuilds (mk kZstd (-7) (Some 31)) (mk kNone 0 None)).
  split; vm_compute; split; discriminate.
Defined.

(** X4: the objects that chains of setter calls build from a
    default-constructed one are exactly the well-formed ones: the level is
    0 for no compression and for Snappy, within 0..11 for Brotli and
    within -131072..22 for Zstd, and the window log is unset or within
    10..31, on every algorithm. *)
Theorem built_iff_well_formed (self : t) :
  (exists ms, apply_mutations ms CompressorOptions = Done self)
  <-> well_formed self.
Proof.
  split.
  - intros [ms Hrun].
    exact (chain_keeps_well_formed ms _ _ default_is_well_formed Hrun).
  - intros Hself. exists (replay self). now apply replay_returns.
Qed.

End ChainFacts.

(** ** More on the setters and the tags *)

Module MoreFacts.

Import Base CompressorOptions Grammar Chains.

(** X5: an algorithm setter and [set_window_log] commute: called in either
    order on the same object, they return the same object, and one order
    returns whenever the other does. *)
Theorem algorithm_and_window_log_commute
    (m : Mutation) (w : option Z) (self result : t) :
  window_log_written m = None ->
  (apply_mutations [m; SetWindowLog w] self = Done result
   <-> apply_mutations [SetWindowLog w; m] self = Done result).
Proof.
  intros Hm.
  assert (Hfold : fold_left overwrite [m; SetWindowLog w] self
                  = fold_left overwrite [SetWindowLog w; m] self).
  { destruct m; try discriminate Hm; reflexivity. }
  split; intros Hrun; apply ChainFacts.chain_returned in Hrun as [Hin ->].
  - rewrite Hfold. apply ChainFacts.chain_in_bounds.
    inversion Hin as [|? ? H1 H2]; subst. inversion H2; subst.
    repeat constructor; assumption.
  - rewrite <- Hfold. apply ChainFacts.chain_in_bounds.
    inversion Hin as [|? ? H1 H2]; subst. inversion H2; subst.
    repeat constructor; assumption.
Qed.

(** X5, on [set_zstd(5)] and [set_window_log(20)]. *)
Lemma algorithm_and_window_log_commute_witness :
  apply_mutations [SetZstd 5; SetWindowLog (Some 20)] CompressorOptions
  = Done (mk kZstd 5 (Some 20))
  <-> apply_mutations [SetWindowLog (Some 20); SetZstd 5] CompressorOptions
      = Done (mk kZstd 5 (Some 20)).
Proof.
  apply (algorithm_and_window_log_commute
           (SetZstd 5) (Some 20) CompressorOptions (mk kZstd 5 (Some 20))).
  reflexivity.
Defined.

(** X6: [set_window_log] stores a present value exactly when the value is
    in the window-log range of Brotli or in that of Zstd, whatever the
    algorithm of the object is: on a Brotli object it stores 31, which is
    above Brotli's own maximum. *)
Theorem set_window_log_accepts_union_of_ranges (w : Z) (self : t) :
  ((exists self', set_window_log (Some w) self = Done self')
   <-> (BrotliWriterBase.Options.kMinWindowLog <= w
        <= BrotliWriterBase.Options.kMaxWindowLog
        \/ ZstdWriterBase.Options.kMinWindowLog <= w
           <= ZstdWriterBase.Options.kMaxWindowLog))
  /\ (forall level,
        set_window_log (Some 31) (mk kBrotli level None)
        = Done (mk kBrotli level (Some 31)))
  /\ BrotliWriterBase.Options.kMaxWindowLog < 31.
Proof.
  split; [|split; [reflexivity | reflexivity]].
  cbv [BrotliWriterBase.Options.kMinWindowLog
       BrotliWriterBase.Options.kMaxWindowLog
       ZstdWriterBase.Options.kMinWindowLog
       ZstdWriterBase.Options.kMaxWindowLog].
  split.
  - intros [self' Hdone].
    assert (Hw : 10 <= w <= 31 \/ ~ 10 <= w <= 31) by lia.
    destruct Hw as [Hw|Hw]; [lia|].
    destruct (SetterFacts.set_window_log_failed w self Hw) as [message Hfail].
    congruence.
  - intros Hw. eexists. apply SetterFacts.set_window_log_done. lia.
Qed.

(** X7: within each of the two enums of [types.h], the codes are pairwise
    different and each fits in the [uint8_t] that stores it: a stored
    byte is the code of one enumerator at most. *)
Theorem enum_codes_identify_enumerators :
  (forall a b : Types.ChunkType,
      Types.ChunkType_value a = Types.ChunkType_value b <-> a = b)
  /\ (forall a : Types.ChunkType, 0 <= Types.ChunkType_value a < 256)
  /\ (forall a b : Types.CompressionType,
        Types.CompressionType_value a = Types.CompressionType_value b
        <-> a = b)
  /\ (forall a : Types.CompressionType,
        0 <= Types.CompressionType_value a < 256).
Proof.
  split; [|split; [|split]].
  - intros a b. split; [apply TypesFacts.ChunkType_value_injective | now intros ->].
  - apply TypesFacts.ChunkType_value_byte.
  - intros a b.
    split; [apply TypesFacts.CompressionType_value_injective | now intros ->].
  - apply TypesFacts.CompressionType_value_byte.
Qed.

End MoreFacts.

(** ** The grammar of the header comment *)

Module GrammarFacts.

Import Base CompressorOptions Grammar Chains.

Lemma digit_exists (d : Z) : 0 <= d <= 9 -> exists c, digit c d.
Proof.
  intros Hd.
  assert (H : d = 0 \/ d = 1 \/ d = 2 \/ d = 3 \/ d = 4 \/ d = 5
              \/ d = 6 \/ d = 7 \/ d = 8 \/ d = 9) by lia.
  destruct H as [->|[->|[->|[->|[->|[->|[->|[->|[->| ->]]]]]]]]];
    eexists; constructor.
Qed.

Lemma numeral_exists_below (k : nat) (n : Z) :
  0 <= n < Z.of_nat k -> exists s, numeral s n.
Proof.
  revert n; induction k as [|k IH]; intros n Hn; [lia|].
  assert (Hcase : n <= 9 \/ 10 <= n) by lia.
  destruct Hcase as [Hsmall|Hlarge].
  - destruct (digit_exists n) as [c Hc]; [lia|].
    exists (String c EmptyString). now constructor.
  - pose proof (Z.div_mod n 10 ltac:(lia)) as Hdiv.
    pose proof (Z.mod_pos_bound n 10 ltac:(lia)) as Hmod.
    destruct (IH (n / 10)) as [s Hs]; [lia|].
    destruct (digit_exists (n mod 10)) as [c Hc]; [lia|].
    exists (s ++ String c EmptyString).
    rewrite Hdiv at 1. now constructor.
Qed.

(** Every integer has a numeral of the grammar. *)
Lemma integer_exists (n : Z) : exists s, integer s n.
Proof.
  assert (Hcase : 0 <= n \/ n < 0) by lia.
  destruct Hcase as [Hpos|Hneg].
  - destruct (numeral_exists_below (S (Z.to_nat n)) n) as [s Hs]; [lia|].
    exists s. now constructor.
  - destruct (numeral_exists_below (S (Z.to_nat (- n))) (- n)) as [s Hs]; [lia|].
    exists (String minus s).
    rewrite <- (Z.opp_involutive n). now constructor.
Qed.

(** X8: the options of the grammar and the setter calls that pass their
    assertions are the same: every option stands for a call within the
    bounds of its setter, and every such call is the meaning of some
    option. *)
Theorem grammar_options_are_calls_in_bounds (m : Mutation) :
  of_grammar m <-> in_bounds m.
Proof.
  split.
  - intros [segment H].
    destruct H as [ | |s n _ Hn| |s n _ Hn| | |s n _ Hn]; simpl;
      try exact I; try exact Hn; vm_compute; split; discriminate.
  - destruct m as [ |level|level| |[w|]]; simpl; intros Hm.
    + exists "uncompressed". constructor.
    + destruct (integer_exists level) as [s Hs].
      exists ("brotli:" ++ s). now apply (option_brotli_level s level).
    + destruct (integer_exists level) as [s Hs].
      exists ("zstd:" ++ s). now apply (option_zstd_level s level).
    + exists "snappy". constructor.
    + destruct (integer_exists w) as [s Hs].
      exists ("window_log:" ++ s). now apply (option_window_log s w).
    + exists "window_log:auto". constructor.
Qed.

Lemma options_denote_denoted (text : string) (ms : list Mutation) :
  options_denote text ms -> denoted (split_on comma text) = ms.
Proof.
  induction 1 as [|o m Hm|rest ms _ IH|o m rest ms Hm _ IH].
  - reflexivity.
  - rewrite (ParserFacts.split_on_absent comma o
               (ParserFacts.option_has_no_comma o m Hm)).
    simpl. now rewrite (ParserFacts.parse_option_complete o m Hm).
  - exact IH.
  - rewrite (ParserFacts.split_on_append comma o rest
               (ParserFacts.option_has_no_comma o m Hm)).
    simpl. rewrite (ParserFacts.parse_option_complete o m Hm).
    now rewrite IH.
Qed.

(** X9: the grammar is unambiguous: a text stands for one list of setter
    calls at most. *)
Theorem grammar_is_unambiguous (text : string) (ms ms' : list Mutation) :
  options_denote text ms -> options_denote text ms' -> ms = ms'.
Proof.
  intros H H'.
  apply options_denote_denoted in H. apply options_denote_denoted in H'.
  congruence.
Qed.

(** X9, on ["zstd,,window_log:auto"]. *)
Lemma grammar_is_unambiguous_witness :
  [SetZstd 3; SetWindowLog None] = [SetZstd 3; SetWindowLog None].
Proof.
  assert (H : options_denote "zstd,,window_log:auto"
                [SetZstd 3; SetWindowLog None]).
  { apply (options_more "zstd" (SetZstd 3) ",window_log:auto" [SetWindowLog None]).
    - constructor.
    - apply options_skip, options_last, option_window_log_auto. }
  exact (grammar_is_unambiguous "zstd,,window_log:auto" _ _ H H).
Defined.

(** X10: two texts of the grammar joined by a comma are a text of the
    grammar, which stands for the calls of the first text followed by
    those of the second. *)
Theorem grammar_texts_join (a b : string) (ms ms' : list Mutation) :
  options_denote a ms -> options_denote b ms' ->
  options_denote (a ++ String comma b) (ms ++ ms')%list.
Proof.
  intros Ha Hb.
  induction Ha as [|o m Hm|rest ms _ IH|o m rest ms Hm _ IH]; simpl.
  - now apply options_skip.
  - now apply options_more.
  - now apply options_skip.
  - rewrite ParserFacts.append_associative. simpl.
    now apply options_more.
Qed.

(** X10, on ["brotli:9"] and ["window_log:auto"]. *)
Lemma grammar_texts_join_witness :
  options_denote "brotli:9,window_log:auto" [SetBrotli 9; SetWindowLog None].
Proof.
  apply (grammar_texts_join "brotli:9" "window_log:auto"
           [SetBrotli 9] [SetWindowLog None]).
  - apply options_last. apply (option_brotli_level "9" 9).
    + apply integer_plain, numeral_digit, digit_9.
    + lia.
  - apply options_last, option_window_log_auto.
Defined.

End GrammarFacts.
